(** * A file encryption command line tool (src/app.js)

    The program reads one file, runs it through [cryptoJs.AES], and writes
    the result to a second file.  This development embeds the two file
    operations ([encryptFile], [decryptFile]), the [usage] printer and the
    top-level dispatcher of [src/app.js] in a small state-and-exception
    monad over an explicit process world (file system, console, call
    trace), and proves the properties the specification lists for them. *)

From Stdlib Require Import ZArith String Ascii List Bool Lia.
From stdpp Require Import base option gmap strings list.

Open Scope string_scope.
Open Scope Z_scope.

(** ** Values that cross the boundary of the program *)

(** What a JavaScript [throw] carries in this program: either a Node
    system error raised by [fs.promises] (error code, system call, path),
    or an [Error] object raised inside the crypto-js package (message). *)
Inductive exception : Type :=
| SystemError (code syscall path : string)
| LibraryError (message : string).

(** How a computation ends: normally with a value, with a thrown
    exception (which [try]/[catch] intercepts), or with [process.exit]
    (which nothing intercepts). *)
Inductive result (A : Type) : Type :=
| Ok (a : A)
| Throw (e : exception)
| Exit (code : Z).
Arguments Ok {A} a.
Arguments Throw {A} e.
Arguments Exit {A} code.

(** How a call into a library ends: it returns a value or it throws. *)
Inductive outcome (A : Type) : Type :=
| Return (a : A)
| Raise (e : exception).
Arguments Return {A} a.
Arguments Raise {A} e.

(** The two file operations of the program. *)
Inductive operation : Type := OpEncryptFile | OpDecryptFile.

(** The calls the program makes, in the order it makes them: entering
    one of its two operations, and each call into [fs.promises] and
    [cryptoJs.AES]. *)
Inductive event : Type :=
| EvInvoke (op : operation)
| EvReadFile (path : string)
| EvWriteFile (path data : string)
| EvAESEncrypt (message key : string)
| EvAESDecrypt (ciphertext key : string).

(** One line group written to the console.  [console.log] goes to the
    standard output; [console.trace] and [console.error] go to the
    standard error stream. *)
Inductive output : Type :=
| Log (text : string)
| Trace (error : exception)
| Error (text : string).

(** The result of [util.parseArgs] for the option table of the program
    (lines 47-62): the positional tokens and the two optional string
    values, [undefined] being [None]. *)
Record parsed_args : Type := ParsedArgs {
  positionals : list string;
  values_output : option string;
  values_key : option string;
}.

(** ** The crypto-js binding *)

(** Modelled from the spec: the crypto-js package ([cryptoJs.AES.encrypt],
    [cryptoJs.AES.decrypt], the [toString] of their results and the
    [cryptoJs.enc.Utf8] encoder) is a third-party dependency whose code is
    not part of the repository.  Section 4.1 describes it as the
    CipherTransform interface: a pure function from text and passphrase to
    the opposite form, whose encryption manages its own randomised
    salt/IV.  The interface below has one entry per library call the
    source makes; [Salt] is the randomness one [AES.encrypt] call draws. *)
Class CryptoJS : Type := {
  Salt : Type;
  CipherParams : Type;
  WordArray : Type;
  AES_encrypt : Salt → string → string → outcome CipherParams;
  CipherParams_toString : CipherParams → outcome string;
  AES_decrypt : string → string → outcome WordArray;
  WordArray_toString_Utf8 : WordArray → outcome string;
}.

(** The right-hand side of line 15,
    [cryptoJs.AES.encrypt(message, key).toString()]: the CipherTransform
    [Encrypt] of the specification. *)
Definition Encrypt `{CryptoJS} (salt : Salt) (message key : string) : outcome string :=
  match AES_encrypt salt message key with
  | Return cipherParams => CipherParams_toString cipherParams
  | Raise e => Raise e
  end.

(** Lines 28-29 without the file access,
    [cryptoJs.AES.decrypt(ciphertext, key).toString(cryptoJs.enc.Utf8)]:
    the CipherTransform [Decrypt] of the specification. *)
Definition Decrypt `{CryptoJS} (ciphertext key : string) : outcome string :=
  match AES_decrypt ciphertext key with
  | Return wordArray => WordArray_toString_Utf8 wordArray
  | Raise e => Raise e
  end.

(** Modelled from the spec: the round-trip contract of the crypto-js
    binding, whose code is not part of the repository (sections 4.1 and
    8): encryption succeeds whatever salt it draws, and decryption of its
    output under the same key returns the plaintext. *)
Definition round_trip_contract `{CryptoJS} : Prop :=
  ∀ (salt : Salt) (P K : string),
    ∃ c, Encrypt salt P K = Return c ∧ Decrypt c K = Return P.


(** ** String helpers of the JavaScript runtime *)

(** The white space and line terminator characters of the ASCII range,
    which [String.prototype.trim] strips. *)
Definition is_white_space (c : ascii) : bool :=
  match nat_of_ascii c with
  | 9%nat | 10%nat | 11%nat | 12%nat | 13%nat | 32%nat => true
  | _ => false
  end.

Fixpoint trimStart (s : string) : string :=
  match s with
  | EmptyString => EmptyString
  | String c s' => if is_white_space c then trimStart s' else s
  end.

Fixpoint trimEnd (s : string) : string :=
  match s with
  | EmptyString => EmptyString
  | String c s' =>
      match trimEnd s' with
      | EmptyString => if is_white_space c then EmptyString else String c EmptyString
      | t => String c t
      end
  end.

Definition trim (s : string) : string := trimEnd (trimStart s).

(** The template literal of [usage] (lines 38-44), before [.trim()]. *)
Definition usage_template : string :=
"
Usage: npm start encrypt|decrypt <input file> -- [options]

Options:
    -o, --output <output file> Defaults to input file name with .enc extension if encrypt is used, otherwise defaults to input file name with .txt extension if decrypt is used.
    -k, --key <encryption key> Defaults to 'mySecretKey' key.
    ".

Definition usage_text : string := Eval vm_compute in trim usage_template.

Section Program.
Context `{CryptoJS}.

(** ** The process world *)

(** The part of the machine one invocation can observe or change.
    [files] maps a path to the text [readFile (path, 'utf-8')] returns for
    it; a path outside [files] does not exist.  [read_error] and
    [write_error] list the paths on which the respective call fails
    (permissions, a directory in the way, a full disk) with the error code
    it fails with; a call that fails leaves the files as they were.
    Paths stand for files: two different path strings are two different
    files.  [entropy] is the randomness [AES.encrypt] will draw.
    [console] and [calls] grow at the end. *)
Record world : Type := World {
  files : gmap string string;
  read_error : gmap string string;
  write_error : gmap string string;
  entropy : Salt;
  console : list output;
  calls : list event;
}.

Definition set_files (f : gmap string string) (w : world) : world :=
  World f (read_error w) (write_error w) (entropy w) (console w) (calls w).

Definition add_console (o : output) (w : world) : world :=
  World (files w) (read_error w) (write_error w) (entropy w)
        (console w ++ [o]) (calls w).

Definition add_call (e : event) (w : world) : world :=
  World (files w) (read_error w) (write_error w) (entropy w)
        (console w) (calls w ++ [e]).

(** ** The monad of the program: state plus exceptions plus exit *)

Definition M (A : Type) : Type := world → result A * world.

#[global] Instance M_ret : MRet M := fun A (a : A) w => (Ok a, w).

#[global] Instance M_bind : MBind M := fun A B (k : A → M B) (m : M A) w =>
  match m w with
  | (Ok a, w') => k a w'
  | (Throw e, w') => (Throw e, w')
  | (Exit c, w') => (Exit c, w')
  end.

(** [try { body } catch (error) { handler }]: only a thrown exception
    reaches the handler. *)
Definition try_catch {A} (body : M A) (handler : exception → M A) : M A :=
  fun w =>
    match body w with
    | (Throw e, w') => handler e w'
    | r => r
    end.

(** A library call whose outcome does not depend on the world. *)
Definition lift {A} (r : outcome A) : M A :=
  fun w =>
    match r with
    | Return a => (Ok a, w)
    | Raise e => (Throw e, w)
    end.

Definition record (e : event) : M unit := fun w => (Ok tt, add_call e w).

(** ** Node and console primitives *)

(** [fs.promises.readFile(path, 'utf-8')], awaited. *)
Definition readFile (path : string) : M string :=
  fun w0 =>
    let w := add_call (EvReadFile path) w0 in
    match read_error w !! path with
    | Some code => (Throw (SystemError code "open" path), w)
    | None =>
        match files w !! path with
        | Some data => (Ok data, w)
        | None => (Throw (SystemError "ENOENT" "open" path), w)
        end
    end.

(** [fs.promises.writeFile(path, data)], awaited: creates the file or
    replaces its content. *)
Definition writeFile (path data : string) : M unit :=
  fun w0 =>
    let w := add_call (EvWriteFile path data) w0 in
    match write_error w !! path with
    | Some code => (Throw (SystemError code "open" path), w)
    | None => (Ok tt, set_files (<[path := data]> (files w)) w)
    end.

Definition console_log (text : string) : M unit :=
  fun w => (Ok tt, add_console (Log text) w).

Definition console_trace (error : exception) : M unit :=
  fun w => (Ok tt, add_console (Trace error) w).

Definition console_error (text : string) : M unit :=
  fun w => (Ok tt, add_console (Error text) w).

Definition process_exit {A} (code : Z) : M A := fun w => (Exit code, w).

(** [cryptoJs.AES.encrypt(message, key)], with the salt taken from the
    world. *)
Definition cryptoJs_AES_encrypt (message key : string) : M CipherParams :=
  fun w =>
    lift (AES_encrypt (entropy w) message key)
         (add_call (EvAESEncrypt message key) w).

Definition cryptoJs_AES_decrypt (ciphertext key : string) : M WordArray :=
  fun w =>
    lift (AES_decrypt ciphertext key)
         (add_call (EvAESDecrypt ciphertext key) w).

(** ** The program *)

(** Lines 13-17. *)
Definition encryptFile (inputFilePath key outputFilePath : string) : M unit :=
  record (EvInvoke OpEncryptFile) ;;
  inputFileData ← readFile inputFilePath;
  cipherParams ← cryptoJs_AES_encrypt inputFileData key;
  encryptedData ← lift (CipherParams_toString cipherParams);
  writeFile outputFilePath encryptedData.

(** Lines 26-30.  The argument [decryptedData.toString(cryptoJs.enc.Utf8)]
    is evaluated before [writeFile] is called. *)
Definition decryptFile (inputFilePath key outputFilePath : string) : M unit :=
  record (EvInvoke OpDecryptFile) ;;
  inputFileData ← readFile inputFilePath;
  decryptedData ← cryptoJs_AES_decrypt inputFileData key;
  text ← lift (WordArray_toString_Utf8 decryptedData);
  writeFile outputFilePath text.

(** Lines 37-45. *)
Definition usage : M unit := console_log usage_text.

(** Lines 64-94, run on the result [args] of [parseArgs]. *)
Definition main (args : parsed_args) : M unit :=
  (if bool_decide (length (positionals args) ≠ 2%nat)
   then usage ;; process_exit 1
   else mret tt) ;;
  let action := positionals args !!! 0%nat in
  let inputFilePath := positionals args !!! 1%nat in
  let encryptionKey := default "mySecretKey" (values_key args) in
  if bool_decide (action = "encrypt") then
    let outputFilePath := default (inputFilePath +:+ ".enc") (values_output args) in
    try_catch
      (encryptFile inputFilePath encryptionKey outputFilePath ;;
       console_log ("Successfully encrypted " +:+ inputFilePath +:+
                    ", and saved to " +:+ outputFilePath +:+ "."))
      (fun error =>
         console_trace error ;;
         console_error ("Failed to encrypt " +:+ inputFilePath +:+ "."))
  else if bool_decide (action = "decrypt") then
    let outputFilePath := default (inputFilePath +:+ ".txt") (values_output args) in
    try_catch
      (decryptFile inputFilePath encryptionKey outputFilePath ;;
       console_log ("Successfully decrypted " +:+ inputFilePath +:+
                    ", and saved to " +:+ outputFilePath +:+ "."))
      (fun error =>
         console_trace error ;;
         console_error ("Failed to decrypt " +:+ inputFilePath +:+ "."))
  else
    console_log ("Unknown action: " +:+ action +:+ ".") ;;
    usage.

(** The exit code of the process: the argument of [process.exit], 1 for
    an exception nothing caught, 0 when the module runs to its end. *)
Definition exit_code {A} (r : result A) : Z :=
  match r with
  | Ok _ => 0
  | Throw _ => 1
  | Exit code => code
  end.

(** One invocation of the program: exit code and final world. *)
Definition run (args : parsed_args) (w : world) : Z * world :=
  let '(r, w') := main args w in (exit_code r, w').

(** The key and the output path an invocation uses (lines 71, 74, 83). *)
Definition key_used (args : parsed_args) : string :=
  default "mySecretKey" (values_key args).

Definition encrypt_output (args : parsed_args) (inputFilePath : string) : string :=
  default (inputFilePath +:+ ".enc") (values_output args).

Definition decrypt_output (args : parsed_args) (inputFilePath : string) : string :=
  default (inputFilePath +:+ ".txt") (values_output args).

(** The world after the two calls every operation starts with. *)
Definition after_read (op : operation) (inp : string) (w : world) : world :=
  add_call (EvReadFile inp) (add_call (EvInvoke op) w).

(** What the dispatcher does with the outcome of [encryptFile] (lines
    77-81) and of [decryptFile] (lines 86-90), as exit code and world. *)
Definition report_encrypt (inp out : string) (r : result unit * world) : Z * world :=
  match r with
  | (Ok _, w') =>
      (0, add_console (Log ("Successfully encrypted " +:+ inp +:+
                            ", and saved to " +:+ out +:+ ".")) w')
  | (Throw e, w') =>
      (0, add_console (Error ("Failed to encrypt " +:+ inp +:+ "."))
            (add_console (Trace e) w'))
  | (Exit code, w') => (code, w')
  end.

Definition report_decrypt (inp out : string) (r : result unit * world) : Z * world :=
  match r with
  | (Ok _, w') =>
      (0, add_console (Log ("Successfully decrypted " +:+ inp +:+
                            ", and saved to " +:+ out +:+ ".")) w')
  | (Throw e, w') =>
      (0, add_console (Error ("Failed to decrypt " +:+ inp +:+ "."))
            (add_console (Trace e) w'))
  | (Exit code, w') => (code, w')
  end.

(** When the three steps of an operation throw, as conditions on the
    world the operation starts in. *)
Definition read_throws (w : world) (inp : string) : Prop :=
  read_error w !! inp ≠ None ∨ files w !! inp = None.

Definition encrypt_throws (w : world) (inp key : string) : Prop :=
  ∃ data e, read_error w !! inp = None ∧ files w !! inp = Some data ∧
            Encrypt (entropy w) data key = Raise e.

Definition decrypt_throws (w : world) (inp key : string) : Prop :=
  ∃ data e, read_error w !! inp = None ∧ files w !! inp = Some data ∧
            Decrypt data key = Raise e.

Definition write_throws (w : world) (out : string) : Prop :=
  write_error w !! out ≠ None.

End Program.

(** ** Reading a call trace *)

Definition invoked (tr : list event) : list operation :=
  omap (λ e, match e with EvInvoke op => Some op | _ => None end) tr.

Definition written (tr : list event) : list string :=
  omap (λ e, match e with EvWriteFile path _ => Some path | _ => None end) tr.

Definition read (tr : list event) : list string :=
  omap (λ e, match e with EvReadFile path => Some path | _ => None end) tr.

Definition cipher_calls (tr : list event) : list event :=
  omap (λ e, match e with
             | EvAESEncrypt _ _ | EvAESDecrypt _ _ => Some e
             | _ => None
             end) tr.

Definition cipher_keys (tr : list event) : list string :=
  omap (λ e, match e with
             | EvAESEncrypt _ key | EvAESDecrypt _ key => Some key
             | _ => None
             end) tr.

(** ** Reading the console *)

(** What went to the standard error stream ([console.trace] and
    [console.error]) and the lines that went to the standard output
    ([console.log]). *)
Definition stderr (out : list output) : list output :=
  omap (λ o, match o with Log _ => None | _ => Some o end) out.

Definition stdout (out : list output) : list string :=
  omap (λ o, match o with Log text => Some text | _ => None end) out.

(** ** A stand-in binding for running the program on concrete inputs *)

Definition xor_ascii (a b : ascii) : ascii :=
  match a, b with
  | Ascii a0 a1 a2 a3 a4 a5 a6 a7, Ascii b0 b1 b2 b3 b4 b5 b6 b7 =>
      Ascii (xorb a0 b0) (xorb a1 b1) (xorb a2 b2) (xorb a3 b3)
            (xorb a4 b4) (xorb a5 b5) (xorb a6 b6) (xorb a7 b7)
  end.

Fixpoint key_byte (acc : ascii) (key : string) : ascii :=
  match key with
  | EmptyString => acc
  | String c key' => key_byte (xor_ascii acc c) key'
  end.

Fixpoint xor_string (k : ascii) (s : string) : string :=
  match s with
  | EmptyString => EmptyString
  | String c s' => String (xor_ascii c k) (xor_string k s')
  end.

(** A one-byte-salt XOR cipher with the shape of the binding: the salt is
    stored in front of the ciphertext, and decryption performs no
    integrity check.  It is not crypto-js; it only instantiates the
    interface so that the theorems below can be run on examples. *)
Definition toy_cipher : CryptoJS := {|
  Salt := ascii;
  CipherParams := ascii * string;
  WordArray := string;
  AES_encrypt salt message key :=
    Return (salt, xor_string (key_byte salt key) message);
  CipherParams_toString cp := Return (String (fst cp) (snd cp));
  AES_decrypt ciphertext key :=
    match ciphertext with
    | String salt body => Return (xor_string (key_byte salt key) body)
    | EmptyString => Raise (LibraryError "Malformed ciphertext")
    end;
  WordArray_toString_Utf8 wa := Return wa;
|}.

(** A world of the stand-in binding with the given files and failing
    paths, the salt "S", and empty logs. *)
Definition toy_world (fs rd wr : gmap string string) : @world toy_cipher :=
  @World toy_cipher fs rd wr "S"%char [] [].

(** One plaintext file "a.txt" holding "hello". *)
Definition plain_world : @world toy_cipher :=
  toy_world {[ "a.txt" := "hello" ]} ∅ ∅.

(** The ciphertext of "hello" under "k1" and salt "S", in "a.enc". *)
Definition cipher_world : @world toy_cipher :=
  toy_world {[ "a.enc" := "Saleef" ]} ∅ ∅.

(** An empty file, which the stand-in binding refuses to decrypt. *)
Definition empty_file_world : @world toy_cipher :=
  toy_world {[ "a.enc" := EmptyString ]} ∅ ∅.

(** "a.txt" exists but its default output path cannot be written. *)
Definition read_only_world : @world toy_cipher :=
  toy_world {[ "a.txt" := "hello" ]} ∅ {[ "a.txt.enc" := "EACCES" ]}.

(** "a.txt" holds "hello" and an older "a.txt.enc" is already there. *)
Definition stale_output_world : @world toy_cipher :=
  toy_world {[ "a.txt" := "hello"; "a.txt.enc" := "old" ]} ∅ ∅.

(** ** The model on small inputs *)

Example trim_both_ends : trim "
   a b
  " = "a b".
Proof. reflexivity. Qed.

Example usage_text_first_line :
  substring 0 58%nat usage_text =
  "Usage: npm start encrypt|decrypt <input file> -- [options]".
Proof. reflexivity. Qed.

Example usage_text_last_line :
  substring (String.length usage_text - 57)%nat 57 usage_text =
  "-k, --key <encryption key> Defaults to 'mySecretKey' key.".
Proof. reflexivity. Qed.

Example encrypt_hello :
  @run toy_cipher (ParsedArgs ["encrypt"; "a.txt"] None (Some "k1")) plain_world =
  (0, @World toy_cipher {[ "a.txt" := "hello"; "a.txt.enc" := "Saleef" ]} ∅ ∅ "S"%char
        [Log "Successfully encrypted a.txt, and saved to a.txt.enc."]
        [EvInvoke OpEncryptFile; EvReadFile "a.txt";
         EvAESEncrypt "hello" "k1"; EvWriteFile "a.txt.enc" "Saleef"]).
Proof. vm_compute. reflexivity. Qed.

Example decrypt_hello :
  @run toy_cipher (ParsedArgs ["decrypt"; "a.enc"] None (Some "k1")) cipher_world =
  (0, @World toy_cipher {[ "a.enc" := "Saleef"; "a.enc.txt" := "hello" ]} ∅ ∅ "S"%char
        [Log "Successfully decrypted a.enc, and saved to a.enc.txt."]
        [EvInvoke OpDecryptFile; EvReadFile "a.enc";
         EvAESDecrypt "Saleef" "k1"; EvWriteFile "a.enc.txt" "hello"]).
Proof. vm_compute. reflexivity. Qed.

Example encrypt_missing_file :
  @run toy_cipher (ParsedArgs ["encrypt"; "zz"] (Some "out") None) plain_world =
  (0, @World toy_cipher {[ "a.txt" := "hello" ]} ∅ ∅ "S"%char
        [Trace (SystemError "ENOENT" "open" "zz"); Error "Failed to encrypt zz."]
        [EvInvoke OpEncryptFile; EvReadFile "zz"]).
Proof. vm_compute. reflexivity. Qed.

(** ** Unfolding the program *)

Section Unfolding.
Context `{CryptoJS}.

Lemma encryptFile_unfold inp key out w :
  encryptFile inp key out w =
  match read_error w !! inp, files w !! inp with
  | Some code, _ =>
      (Throw (SystemError code "open" inp), after_read OpEncryptFile inp w)
  | None, None =>
      (Throw (SystemError "ENOENT" "open" inp), after_read OpEncryptFile inp w)
  | None, Some data =>
      let w2 := add_call (EvAESEncrypt data key) (after_read OpEncryptFile inp w) in
      match Encrypt (entropy w) data key with
      | Raise e => (Throw e, w2)
      | Return enc =>
          let w3 := add_call (EvWriteFile out enc) w2 in
          match write_error w !! out with
          | Some code => (Throw (SystemError code "open" out), w3)
          | None => (Ok tt, set_files (<[out := enc]> (files w)) w3)
          end
      end
  end.
Proof.
  unfold encryptFile, readFile, writeFile, cryptoJs_AES_encrypt, Encrypt,
    after_read, mbind, M_bind, record, lift; simpl.
  destruct (read_error w !! inp); [reflexivity|].
  destruct (files w !! inp); [|reflexivity].
  destruct (AES_encrypt _ _ _) as [cp|e]; simpl; [|reflexivity].
  destruct (CipherParams_toString cp); simpl; [|reflexivity].
  destruct (write_error w !! out); reflexivity.
Qed.

Lemma decryptFile_unfold inp key out w :
  decryptFile inp key out w =
  match read_error w !! inp, files w !! inp with
  | Some code, _ =>
      (Throw (SystemError code "open" inp), after_read OpDecryptFile inp w)
  | None, None =>
      (Throw (SystemError "ENOENT" "open" inp), after_read OpDecryptFile inp w)
  | None, Some data =>
      let w2 := add_call (EvAESDecrypt data key) (after_read OpDecryptFile inp w) in
      match Decrypt data key with
      | Raise e => (Throw e, w2)
      | Return text =>
          let w3 := add_call (EvWriteFile out text) w2 in
          match write_error w !! out with
          | Some code => (Throw (SystemError code "open" out), w3)
          | None => (Ok tt, set_files (<[out := text]> (files w)) w3)
          end
      end
  end.
Proof.
  unfold decryptFile, readFile, writeFile, cryptoJs_AES_decrypt, Decrypt,
    after_read, mbind, M_bind, record, lift; simpl.
  destruct (read_error w !! inp); [reflexivity|].
  destruct (files w !! inp); [|reflexivity].
  destruct (AES_decrypt _ _) as [wa|e]; simpl; [|reflexivity].
  destruct (WordArray_toString_Utf8 wa); simpl; [|reflexivity].
  destruct (write_error w !! out); reflexivity.
Qed.

(** The four ways through the dispatcher. *)
Lemma run_wrong_count args w :
  length (positionals args) ≠ 2%nat →
  run args w = (1, add_console (Log usage_text) w).
Proof.
  intros Hlen. unfold run, main, mbind, M_bind.
  rewrite bool_decide_true by exact Hlen. reflexivity.
Qed.

Lemma run_encrypt args inp w :
  positionals args = ["encrypt"; inp] →
  run args w =
  report_encrypt inp (encrypt_output args inp)
    (encryptFile inp (key_used args) (encrypt_output args inp) w).
Proof.
  intros Hpos. unfold run, main, mbind, M_bind, try_catch. rewrite Hpos. simpl.
  fold (key_used args). fold (encrypt_output args inp).
  destruct (encryptFile _ _ _ w) as [[[]|e|c] w']; reflexivity.
Qed.

Lemma run_decrypt args inp w :
  positionals args = ["decrypt"; inp] →
  run args w =
  report_decrypt inp (decrypt_output args inp)
    (decryptFile inp (key_used args) (decrypt_output args inp) w).
Proof.
  intros Hpos. unfold run, main, mbind, M_bind, try_catch. rewrite Hpos. simpl.
  fold (key_used args). fold (decrypt_output args inp).
  destruct (decryptFile _ _ _ w) as [[[]|e|c] w']; reflexivity.
Qed.

Lemma run_unknown args action inp w :
  positionals args = [action; inp] →
  action ≠ "encrypt" → action ≠ "decrypt" →
  run args w =
  (0, add_console (Log usage_text)
        (add_console (Log ("Unknown action: " +:+ action +:+ ".")) w)).
Proof.
  intros Hpos Hne Hnd. unfold run, main, mbind, M_bind. rewrite Hpos. simpl.
  rewrite (bool_decide_false (action = "encrypt")) by exact Hne.
  rewrite (bool_decide_false (action = "decrypt")) by exact Hnd.
  reflexivity.
Qed.

End Unfolding.

(** ** Effects of the two operations *)

Section Effects.
Context `{CryptoJS}.

Ltac by_cases_of unfold_lemma :=
  rewrite unfold_lemma;
  repeat case_match; simpl; rewrite <- ?app_assoc; simpl.

(** The calls one [encryptFile] makes: it is entered once, reads the
    input path once, calls the cipher at most once and only to encrypt
    under the given key, and writes nowhere but to the output path. *)
Lemma encryptFile_calls inp key out w :
  ∃ tr, calls (snd (encryptFile inp key out w)) = (calls w ++ tr)%list ∧
        invoked tr = [OpEncryptFile] ∧ read tr = [inp] ∧
        (∀ p, p ∈ written tr → p = out) ∧
        (∀ e, e ∈ cipher_calls tr → ∃ m, e = EvAESEncrypt m key) ∧
        (∀ k, k ∈ cipher_keys tr → k = key) ∧
        (length (cipher_calls tr) ≤ 1)%nat ∧
        (length (written tr) ≤ 1)%nat.
Proof.
  by_cases_of encryptFile_unfold;
    (eexists; split; [reflexivity|]); simpl;
    repeat split; try lia; intros x Hx;
    repeat (apply elem_of_cons in Hx as [->|Hx]); eauto;
    by apply elem_of_nil in Hx.
Qed.

Lemma decryptFile_calls inp key out w :
  ∃ tr, calls (snd (decryptFile inp key out w)) = (calls w ++ tr)%list ∧
        invoked tr = [OpDecryptFile] ∧ read tr = [inp] ∧
        (∀ p, p ∈ written tr → p = out) ∧
        (∀ e, e ∈ cipher_calls tr → ∃ c, e = EvAESDecrypt c key) ∧
        (∀ k, k ∈ cipher_keys tr → k = key) ∧
        (length (cipher_calls tr) ≤ 1)%nat ∧
        (length (written tr) ≤ 1)%nat.
Proof.
  by_cases_of decryptFile_unfold;
    (eexists; split; [reflexivity|]); simpl;
    repeat split; try lia; intros x Hx;
    repeat (apply elem_of_cons in Hx as [->|Hx]); eauto;
    by apply elem_of_nil in Hx.
Qed.

(** The files after an operation: every path other than the output path
    keeps its content (or its absence). *)
Lemma encryptFile_frame inp key out w p :
  p ≠ out →
  files (snd (encryptFile inp key out w)) !! p = files w !! p.
Proof.
  intros Hp. by_cases_of encryptFile_unfold; try reflexivity.
  by apply lookup_insert_ne.
Qed.

Lemma decryptFile_frame inp key out w p :
  p ≠ out →
  files (snd (decryptFile inp key out w)) !! p = files w !! p.
Proof.
  intros Hp. by_cases_of decryptFile_unfold; try reflexivity.
  by apply lookup_insert_ne.
Qed.

(** Reporting the outcome changes neither the files nor the calls. *)
Lemma report_encrypt_frame inp out r :
  files (snd (report_encrypt inp out r)) = files (snd r) ∧
  calls (snd (report_encrypt inp out r)) = calls (snd r).
Proof. destruct r as [[[]|e|c] w']; done. Qed.

Lemma report_decrypt_frame inp out r :
  files (snd (report_decrypt inp out r)) = files (snd r) ∧
  calls (snd (report_decrypt inp out r)) = calls (snd r).
Proof. destruct r as [[[]|e|c] w']; done. Qed.

End Effects.

(** ** The dispatcher *)

Section Dispatcher.
Context `{CryptoJS}.

(** Neither operation ever calls [process.exit], and neither writes to
    the console. *)
Lemma encryptFile_result inp key out w :
  ∃ r w', encryptFile inp key out w = (r, w') ∧
          (∀ code, r ≠ Exit code) ∧ console w' = console w ∧
          read_error w' = read_error w ∧ write_error w' = write_error w ∧
          entropy w' = entropy w.
Proof.
  rewrite encryptFile_unfold.
  repeat case_match; simpl; eexists _, _; (split; [reflexivity|]); done.
Qed.

Lemma decryptFile_result inp key out w :
  ∃ r w', decryptFile inp key out w = (r, w') ∧
          (∀ code, r ≠ Exit code) ∧ console w' = console w ∧
          read_error w' = read_error w ∧ write_error w' = write_error w ∧
          entropy w' = entropy w.
Proof.
  rewrite decryptFile_unfold.
  repeat case_match; simpl; eexists _, _; (split; [reflexivity|]); done.
Qed.

(** C4: an invocation whose number of positional arguments is not 2
    prints the usage text on the standard output and ends with exit code
    1; it makes no other call and leaves the files alone. *)
Theorem wrong_positional_count_usage_exit_1 (args : parsed_args) (w : world) :
  length (positionals args) ≠ 2%nat →
  fst (run args w) = 1 ∧
  console (snd (run args w)) = (console w ++ [Log usage_text])%list ∧
  calls (snd (run args w)) = calls w ∧
  files (snd (run args w)) = files w.
Proof.
  intros Hlen. rewrite run_wrong_count by exact Hlen. done.
Qed.

(** C7: with two positional arguments and an action that is neither
    "encrypt" nor "decrypt", the program prints "Unknown action: <action>."
    and then the usage text, makes no file system call (indeed no call at
    all), leaves the files as they were, and ends with exit code 0. *)
Theorem unknown_action_message_usage_exit_0
    (args : parsed_args) (action inp : string) (w : world) :
  positionals args = [action; inp] →
  action ≠ "encrypt" → action ≠ "decrypt" →
  fst (run args w) = 0 ∧
  console (snd (run args w)) =
    (console w ++ [Log ("Unknown action: " +:+ action +:+ "."); Log usage_text])%list ∧
  calls (snd (run args w)) = calls w ∧
  files (snd (run args w)) = files w.
Proof.
  intros Hpos Hne Hnd. rewrite (run_unknown args action inp) by assumption.
  simpl. rewrite <- app_assoc. done.
Qed.

(** C5: without [--output], the encrypt action passes the input path
    followed by ".enc" to [encryptFile] as its output path, and the
    decrypt action passes the input path followed by ".txt" to
    [decryptFile]; every write of the invocation goes to that path. *)
Theorem default_output_path (args : parsed_args) (inp : string) (w : world) :
  values_output args = None →
  (positionals args = ["encrypt"; inp] →
     run args w =
       report_encrypt inp (inp +:+ ".enc")
         (encryptFile inp (key_used args) (inp +:+ ".enc") w) ∧
     ∀ tr, calls (snd (run args w)) = (calls w ++ tr)%list →
           ∀ p, p ∈ written tr → p = inp +:+ ".enc") ∧
  (positionals args = ["decrypt"; inp] →
     run args w =
       report_decrypt inp (inp +:+ ".txt")
         (decryptFile inp (key_used args) (inp +:+ ".txt") w) ∧
     ∀ tr, calls (snd (run args w)) = (calls w ++ tr)%list →
           ∀ p, p ∈ written tr → p = inp +:+ ".txt").
Proof.
  intros Hout. split; intros Hpos.
  - rewrite (run_encrypt args inp) by exact Hpos.
    unfold encrypt_output. rewrite Hout. simpl. split; [reflexivity|].
    intros tr Htr.
    rewrite (proj2 (report_encrypt_frame _ _ _)) in Htr.
    destruct (encryptFile_calls inp (key_used args) (inp +:+ ".enc") w)
      as (tr0 & Hcalls & _ & _ & Hwr & _).
    rewrite Hcalls in Htr. apply app_inv_head in Htr as <-. exact Hwr.
  - rewrite (run_decrypt args inp) by exact Hpos.
    unfold decrypt_output. rewrite Hout. simpl. split; [reflexivity|].
    intros tr Htr.
    rewrite (proj2 (report_decrypt_frame _ _ _)) in Htr.
    destruct (decryptFile_calls inp (key_used args) (inp +:+ ".txt") w)
      as (tr0 & Hcalls & _ & _ & Hwr & _).
    rewrite Hcalls in Htr. apply app_inv_head in Htr as <-. exact Hwr.
Qed.

(** C6: without [--key], the encrypt action and the decrypt action both
    hand the same literal, "mySecretKey", to their operation, and every
    cipher call of the invocation is made with that key. *)
Theorem default_key_shared (args : parsed_args) (inp : string) (w : world) :
  values_key args = None →
  (positionals args = ["encrypt"; inp] →
     run args w =
       report_encrypt inp (encrypt_output args inp)
         (encryptFile inp "mySecretKey" (encrypt_output args inp) w) ∧
     ∀ tr, calls (snd (run args w)) = (calls w ++ tr)%list →
           ∀ k, k ∈ cipher_keys tr → k = "mySecretKey") ∧
  (positionals args = ["decrypt"; inp] →
     run args w =
       report_decrypt inp (decrypt_output args inp)
         (decryptFile inp "mySecretKey" (decrypt_output args inp) w) ∧
     ∀ tr, calls (snd (run args w)) = (calls w ++ tr)%list →
           ∀ k, k ∈ cipher_keys tr → k = "mySecretKey").
Proof.
  intros Hkey. split; intros Hpos.
  - rewrite (run_encrypt args inp) by exact Hpos.
    unfold key_used. rewrite Hkey. simpl. split; [reflexivity|].
    intros tr Htr.
    rewrite (proj2 (report_encrypt_frame _ _ _)) in Htr.
    destruct (encryptFile_calls inp "mySecretKey" (encrypt_output args inp) w)
      as (tr0 & Hcalls & _ & _ & _ & _ & Hk & _).
    rewrite Hcalls in Htr. apply app_inv_head in Htr as <-. exact Hk.
  - rewrite (run_decrypt args inp) by exact Hpos.
    unfold key_used. rewrite Hkey. simpl. split; [reflexivity|].
    intros tr Htr.
    rewrite (proj2 (report_decrypt_frame _ _ _)) in Htr.
    destruct (decryptFile_calls inp "mySecretKey" (decrypt_output args inp) w)
      as (tr0 & Hcalls & _ & _ & _ & _ & Hk & _).
    rewrite Hcalls in Htr. apply app_inv_head in Htr as <-. exact Hk.
Qed.

(** C2: when the action is encrypt or decrypt and reading the input
    file, the cipher transform or writing the output file throws, the
    program prints a trace of the exception and the line "Failed to
    <action> <input>." and still ends with exit code 0. *)
Theorem transform_or_io_failure_exits_0 (args : parsed_args) (inp : string) (w : world) :
  (positionals args = ["encrypt"; inp] →
     read_throws w inp ∨ encrypt_throws w inp (key_used args) ∨
       write_throws w (encrypt_output args inp) →
     ∃ e, fst (run args w) = 0 ∧
          console (snd (run args w)) =
            (console w ++ [Trace e; Error ("Failed to encrypt " +:+ inp +:+ ".")])%list) ∧
  (positionals args = ["decrypt"; inp] →
     read_throws w inp ∨ decrypt_throws w inp (key_used args) ∨
       write_throws w (decrypt_output args inp) →
     ∃ e, fst (run args w) = 0 ∧
          console (snd (run args w)) =
            (console w ++ [Trace e; Error ("Failed to decrypt " +:+ inp +:+ ".")])%list).
Proof.
  split; intros Hpos Hthrows.
  - rewrite (run_encrypt args inp) by exact Hpos. rewrite encryptFile_unfold.
    destruct (read_error w !! inp) as [code|] eqn:Hre; simpl.
    { eexists. rewrite <- app_assoc. done. }
    destruct (files w !! inp) as [data|] eqn:Hf; simpl.
    2:{ eexists. rewrite <- app_assoc. done. }
    destruct (Encrypt (entropy w) data (key_used args)) as [enc|e] eqn:He; simpl.
    2:{ eexists. rewrite <- app_assoc. done. }
    destruct (write_error w !! encrypt_output args inp) as [code|] eqn:Hwe; simpl.
    { eexists. rewrite <- app_assoc. done. }
    exfalso. destruct Hthrows as [[Hr|Hr]|[(d & e' & _ & Hd & Hr)|Hr]].
    + unfold read_throws in Hr. congruence.
    + congruence.
    + congruence.
    + unfold write_throws in Hr. congruence.
  - rewrite (run_decrypt args inp) by exact Hpos. rewrite decryptFile_unfold.
    destruct (read_error w !! inp) as [code|] eqn:Hre; simpl.
    { eexists. rewrite <- app_assoc. done. }
    destruct (files w !! inp) as [data|] eqn:Hf; simpl.
    2:{ eexists. rewrite <- app_assoc. done. }
    destruct (Decrypt data (key_used args)) as [text|e] eqn:He; simpl.
    2:{ eexists. rewrite <- app_assoc. done. }
    destruct (write_error w !! decrypt_output args inp) as [code|] eqn:Hwe; simpl.
    { eexists. rewrite <- app_assoc. done. }
    exfalso. destruct Hthrows as [[Hr|Hr]|[(d & e' & _ & Hd & Hr)|Hr]].
    + unfold read_throws in Hr. congruence.
    + congruence.
    + congruence.
    + unfold write_throws in Hr. congruence.
Qed.

(** C9: when reading the input file or the cipher transform throws
    (for decryption, the transform includes the UTF-8 decoding of the
    result), the operation throws without ever calling [writeFile], and
    the files, the output path among them, are exactly as before; the
    same holds for the whole invocation that dispatched to it. *)
Theorem failed_read_or_transform_never_writes (inp key out : string) (w : world) :
  (read_throws w inp ∨ encrypt_throws w inp key →
     (∃ e w' tr, encryptFile inp key out w = (Throw e, w') ∧
                 calls w' = (calls w ++ tr)%list ∧ written tr = [] ∧
                 files w' = files w) ∧
     ∀ args, positionals args = ["encrypt"; inp] →
             key_used args = key → encrypt_output args inp = out →
             files (snd (run args w)) = files w) ∧
  (read_throws w inp ∨ decrypt_throws w inp key →
     (∃ e w' tr, decryptFile inp key out w = (Throw e, w') ∧
                 calls w' = (calls w ++ tr)%list ∧ written tr = [] ∧
                 files w' = files w) ∧
     ∀ args, positionals args = ["decrypt"; inp] →
             key_used args = key → decrypt_output args inp = out →
             files (snd (run args w)) = files w).
Proof.
  split; intros Hthrows.
  - assert (∃ e w' tr, encryptFile inp key out w = (Throw e, w') ∧
                 calls w' = (calls w ++ tr)%list ∧ written tr = [] ∧
                 files w' = files w) as Hop.
    { rewrite encryptFile_unfold.
      destruct Hthrows as [[Hr|Hr]|(d & e & Hre & Hd & Hr)].
      - destruct (read_error w !! inp) as [code|]; [|done].
        eexists _, _, _. split; [reflexivity|]. simpl.
        rewrite <- app_assoc. done.
      - rewrite Hr. destruct (read_error w !! inp) as [code|];
          (eexists _, _, _; split; [reflexivity|]); simpl;
          rewrite <- app_assoc; done.
      - rewrite Hre, Hd. simpl. rewrite Hr.
        eexists _, _, _. split; [reflexivity|]. simpl.
        rewrite <- !app_assoc. done. }
    split; [exact Hop|]. intros args Hpos Hk Ho.
    destruct Hop as (e & w' & tr & Hrun & _ & _ & Hfiles).
    rewrite (run_encrypt args inp) by exact Hpos.
    rewrite Hk, Ho, Hrun. exact Hfiles.
  - assert (∃ e w' tr, decryptFile inp key out w = (Throw e, w') ∧
                 calls w' = (calls w ++ tr)%list ∧ written tr = [] ∧
                 files w' = files w) as Hop.
    { rewrite decryptFile_unfold.
      destruct Hthrows as [[Hr|Hr]|(d & e & Hre & Hd & Hr)].
      - destruct (read_error w !! inp) as [code|]; [|done].
        eexists _, _, _. split; [reflexivity|]. simpl.
        rewrite <- app_assoc. done.
      - rewrite Hr. destruct (read_error w !! inp) as [code|];
          (eexists _, _, _; split; [reflexivity|]); simpl;
          rewrite <- app_assoc; done.
      - rewrite Hre, Hd. simpl. rewrite Hr.
        eexists _, _, _. split; [reflexivity|]. simpl.
        rewrite <- !app_assoc. done. }
    split; [exact Hop|]. intros args Hpos Hk Ho.
    destruct Hop as (e & w' & tr & Hrun & _ & _ & Hfiles).
    rewrite (run_decrypt args inp) by exact Hpos.
    rewrite Hk, Ho, Hrun. exact Hfiles.
Qed.


(** C8: one invocation enters at most one of the two operations and
    makes at most one cipher call; with action "encrypt" it enters
    [encryptFile] exactly once and never calls [AES.decrypt], with action
    "decrypt" it enters [decryptFile] exactly once and never calls
    [AES.encrypt], and otherwise it enters neither.  It reads only the
    input path, writes only the output path, and every other path keeps
    its content. *)
Theorem one_operation_per_invocation (args : parsed_args) (w : world) :
  ∃ tr, calls (snd (run args w)) = (calls w ++ tr)%list ∧
        (length (invoked tr) ≤ 1)%nat ∧
        (length (cipher_calls tr) ≤ 1)%nat ∧
        (∀ inp, positionals args = ["encrypt"; inp] →
           invoked tr = [OpEncryptFile] ∧
           (∀ e, e ∈ cipher_calls tr → ∃ m k, e = EvAESEncrypt m k) ∧
           read tr = [inp] ∧
           (∀ p, p ∈ written tr → p = encrypt_output args inp) ∧
           (∀ p, p ≠ encrypt_output args inp →
                 files (snd (run args w)) !! p = files w !! p)) ∧
        (∀ inp, positionals args = ["decrypt"; inp] →
           invoked tr = [OpDecryptFile] ∧
           (∀ e, e ∈ cipher_calls tr → ∃ c k, e = EvAESDecrypt c k) ∧
           read tr = [inp] ∧
           (∀ p, p ∈ written tr → p = decrypt_output args inp) ∧
           (∀ p, p ≠ decrypt_output args inp →
                 files (snd (run args w)) !! p = files w !! p)) ∧
        ((∀ inp, positionals args ≠ ["encrypt"; inp]) →
         (∀ inp, positionals args ≠ ["decrypt"; inp]) →
           tr = [] ∧ files (snd (run args w)) = files w).
Proof.
  destruct (decide (length (positionals args) = 2%nat)) as [Hlen|Hlen].
  - destruct (positionals args) as [|action [|inp [|x l]]] eqn:Hpos;
      try discriminate Hlen.
    destruct (decide (action = "encrypt")) as [->|Hne].
    { rewrite (run_encrypt args inp) by exact Hpos.
      destruct (report_encrypt_frame inp (encrypt_output args inp)
        (encryptFile inp (key_used args) (encrypt_output args inp) w))
        as [Hfiles ->].
      destruct (encryptFile_calls inp (key_used args) (encrypt_output args inp) w)
        as (tr & Hcalls & Hinv & Hread & Hwr & Hciph & _ & Hlc & _).
      exists tr. split; [exact Hcalls|]. rewrite Hinv.
      split; [simpl; lia|]. split; [exact Hlc|].
      split; [|split]; [| |intros Hc _; by destruct (Hc inp)].
      - intros inp' [= <-]. repeat split; try assumption.
        + intros e He. destruct (Hciph e He) as [m ->]. eauto.
        + intros p Hp. rewrite Hfiles. by apply encryptFile_frame.
      - intros inp' [=]. }
    destruct (decide (action = "decrypt")) as [->|Hnd].
    { rewrite (run_decrypt args inp) by exact Hpos.
      destruct (report_decrypt_frame inp (decrypt_output args inp)
        (decryptFile inp (key_used args) (decrypt_output args inp) w))
        as [Hfiles ->].
      destruct (decryptFile_calls inp (key_used args) (decrypt_output args inp) w)
        as (tr & Hcalls & Hinv & Hread & Hwr & Hciph & _ & Hlc & _).
      exists tr. split; [exact Hcalls|]. rewrite Hinv.
      split; [simpl; lia|]. split; [exact Hlc|].
      split; [|split]; [| |intros _ Hc; by destruct (Hc inp)].
      - intros inp' [=].
      - intros inp' [= <-]. repeat split; try assumption.
        + intros e He. destruct (Hciph e He) as [c ->]. eauto.
        + intros p Hp. rewrite Hfiles. by apply decryptFile_frame. }
    rewrite (run_unknown args action inp) by assumption.
    exists []. simpl. rewrite app_nil_r.
    split; [reflexivity|]. split; [lia|]. split; [lia|].
    split; [|split]; [| |done]; intros inp' [= ? ?]; congruence.
  - rewrite run_wrong_count by exact Hlen.
    exists []. simpl. rewrite app_nil_r.
    split; [reflexivity|]. split; [lia|]. split; [lia|].
    split; [|split]; [| |done];
      intros inp' Hpos; rewrite Hpos in Hlen; by destruct Hlen.
Qed.

End Dispatcher.

(** ** The cipher contract, carried through the files *)

Section Cipher.
Context `{CryptoJS}.



(** The round trip through the command line, with the default output
    paths and whatever [--key] both invocations share: encrypting [inp]
    and then decrypting [inp.enc] leaves P in [inp.enc.txt], and both
    invocations end with exit code 0. *)
Corollary cli_round_trip (P inp : string) (k : option string) (w : world) :
  round_trip_contract →
  files w !! inp = Some P → read_error w !! inp = None →
  write_error w !! (inp +:+ ".enc") = None →
  read_error w !! (inp +:+ ".enc") = None →
  write_error w !! ((inp +:+ ".enc") +:+ ".txt") = None →
  let first := run (ParsedArgs ["encrypt"; inp] None k) w in
  let second := run (ParsedArgs ["decrypt"; inp +:+ ".enc"] None k) (snd first) in
  fst first = 0 ∧ fst second = 0 ∧
  files (snd second) !! ((inp +:+ ".enc") +:+ ".txt") = Some P.
Proof.
  intros Hrt Hfile Hre Hwe Hre2 Hwe2. simpl.
  set (key := default "mySecretKey" k).
  destruct (Hrt (entropy w) P key) as (c & Henc & Hdec).
  rewrite (run_encrypt _ inp) by reflexivity.
  rewrite (run_decrypt _ (inp +:+ ".enc")) by reflexivity.
  unfold encrypt_output, decrypt_output, key_used. simpl. fold key.
  rewrite encryptFile_unfold, Hre, Hfile. simpl. rewrite Henc, Hwe. simpl.
  rewrite decryptFile_unfold. simpl. rewrite Hre2, lookup_insert_eq. simpl.
  rewrite Hdec, Hwe2. simpl.
  split; [reflexivity|]. split; [reflexivity|]. apply lookup_insert_eq.
Qed.

End Cipher.

(** ** The successful paths *)

Section Success.
Context `{CryptoJS}.

(** X1: an encrypt invocation whose three steps succeed ends with exit
    code 0, has made exactly the four calls in program order, has put
    the text the cipher returned for the content of the input file at the
    output path (whether or not a file was there before), and has
    printed the one success line naming both paths. *)
Theorem encrypt_success (args : parsed_args) (inp data enc : string) (w : world) :
  positionals args = ["encrypt"; inp] →
  read_error w !! inp = None → files w !! inp = Some data →
  Encrypt (entropy w) data (key_used args) = Return enc →
  write_error w !! encrypt_output args inp = None →
  run args w =
    (0, World (<[encrypt_output args inp := enc]> (files w))
              (read_error w) (write_error w) (entropy w)
              (console w ++
                 [Log ("Successfully encrypted " +:+ inp +:+ ", and saved to " +:+
                       encrypt_output args inp +:+ ".")])%list
              (calls w ++
                 [EvInvoke OpEncryptFile; EvReadFile inp;
                  EvAESEncrypt data (key_used args);
                  EvWriteFile (encrypt_output args inp) enc])%list).
Proof.
  intros Hpos Hre Hfile Henc Hwe.
  rewrite (run_encrypt args inp) by exact Hpos.
  rewrite encryptFile_unfold, Hre, Hfile. simpl. rewrite Henc, Hwe. simpl.
  unfold add_console, set_files, add_call, after_read. simpl.
  rewrite <- !app_assoc. reflexivity.
Qed.

(** X2: a decrypt invocation whose three steps succeed ends with exit
    code 0, has made exactly the four calls in program order, has put
    the text the cipher returned for the content of the input file at the
    output path, and has printed the one success line naming both
    paths. *)
Theorem decrypt_success (args : parsed_args) (inp data text : string) (w : world) :
  positionals args = ["decrypt"; inp] →
  read_error w !! inp = None → files w !! inp = Some data →
  Decrypt data (key_used args) = Return text →
  write_error w !! decrypt_output args inp = None →
  run args w =
    (0, World (<[decrypt_output args inp := text]> (files w))
              (read_error w) (write_error w) (entropy w)
              (console w ++
                 [Log ("Successfully decrypted " +:+ inp +:+ ", and saved to " +:+
                       decrypt_output args inp +:+ ".")])%list
              (calls w ++
                 [EvInvoke OpDecryptFile; EvReadFile inp;
                  EvAESDecrypt data (key_used args);
                  EvWriteFile (decrypt_output args inp) text])%list).
Proof.
  intros Hpos Hre Hfile Hdec Hwe.
  rewrite (run_decrypt args inp) by exact Hpos.
  rewrite decryptFile_unfold, Hre, Hfile. simpl. rewrite Hdec, Hwe. simpl.
  unfold add_console, set_files, add_call, after_read. simpl.
  rewrite <- !app_assoc. reflexivity.
Qed.

End Success.

(** ** What the process reports *)

Section Reporting.
Context `{CryptoJS}.





(** X4: the usage text is printed exactly when the number of positional
    arguments is not 2 or the action is neither "encrypt" nor "decrypt";
    an encrypt or decrypt invocation never prints it, failed or not. *)
Theorem usage_printed_iff (args : parsed_args) (w : world) :
  ∃ out, console (snd (run args w)) = (console w ++ out)%list ∧
         (usage_text ∈ stdout out ↔
            length (positionals args) ≠ 2%nat ∨
            ∃ action inp, positionals args = [action; inp] ∧
                          action ≠ "encrypt" ∧ action ≠ "decrypt").
Proof.
  destruct (decide (length (positionals args) = 2%nat)) as [Hlen|Hlen].
  - destruct (positionals args) as [|action [|inp [|x l]]] eqn:Hpos;
      try discriminate Hlen.
    destruct (decide (action = "encrypt")) as [->|Hne].
    { rewrite (run_encrypt args inp) by exact Hpos.
      destruct (encryptFile_result inp (key_used args) (encrypt_output args inp) w)
        as (r & w' & -> & Hr & Hcons & _).
      destruct r as [[]|e|c]; [| |by destruct (Hr c)]; simpl; rewrite Hcons.
      - eexists [_]. split; [reflexivity|]. simpl. split.
        + intros Hin. apply list_elem_of_singleton in Hin. discriminate Hin.
        + intros [Hl|(a & i & [= <- <-] & Ha & _)]; [by destruct Hl|by destruct Ha].
      - eexists [_; _]. split; [by rewrite <- app_assoc|]. simpl. split.
        + intros Hin. by apply elem_of_nil in Hin.
        + intros [Hl|(a & i & [= <- <-] & Ha & _)]; [by destruct Hl|by destruct Ha]. }
    destruct (decide (action = "decrypt")) as [->|Hnd].
    { rewrite (run_decrypt args inp) by exact Hpos.
      destruct (decryptFile_result inp (key_used args) (decrypt_output args inp) w)
        as (r & w' & -> & Hr & Hcons & _).
      destruct r as [[]|e|c]; [| |by destruct (Hr c)]; simpl; rewrite Hcons.
      - eexists [_]. split; [reflexivity|]. simpl. split.
        + intros Hin. apply list_elem_of_singleton in Hin. discriminate Hin.
        + intros [Hl|(a & i & [= <- <-] & _ & Ha)]; [by destruct Hl|by destruct Ha].
      - eexists [_; _]. split; [by rewrite <- app_assoc|]. simpl. split.
        + intros Hin. by apply elem_of_nil in Hin.
        + intros [Hl|(a & i & [= <- <-] & _ & Ha)]; [by destruct Hl|by destruct Ha]. }
    rewrite (run_unknown args action inp) by assumption.
    eexists [_; _]. split; [simpl; by rewrite <- app_assoc|]. simpl. split.
    + intros _. right. by exists action, inp.
    + intros _. apply list_elem_of_further, list_elem_of_here.
  - rewrite run_wrong_count by exact Hlen.
    eexists [_]. split; [reflexivity|]. simpl. split.
    + intros _. by left.
    + intros _. apply list_elem_of_here.
Qed.

(** X5: an encrypt or decrypt invocation writes to the standard error
    stream exactly when reading the input, the cipher transform or
    writing the output throws; as the exit code is 0 either way, that
    stream is the only sign of the failure.  The usage and unknown-action
    paths write nothing to it. *)
Theorem stderr_iff_operation_throws (args : parsed_args) (inp : string) (w : world) :
  ∃ out, console (snd (run args w)) = (console w ++ out)%list ∧
    (positionals args = ["encrypt"; inp] →
       (stderr out ≠ [] ↔
          read_throws w inp ∨ encrypt_throws w inp (key_used args) ∨
            write_throws w (encrypt_output args inp))) ∧
    (positionals args = ["decrypt"; inp] →
       (stderr out ≠ [] ↔
          read_throws w inp ∨ decrypt_throws w inp (key_used args) ∨
            write_throws w (decrypt_output args inp))) ∧
    ((∀ i, positionals args ≠ ["encrypt"; i]) →
     (∀ i, positionals args ≠ ["decrypt"; i]) → stderr out = []).
Proof.
  destruct (decide (length (positionals args) = 2%nat)) as [Hlen|Hlen].
  - destruct (positionals args) as [|action [|inp' [|x l]]] eqn:Hpos;
      try discriminate Hlen.
    destruct (decide (action = "encrypt")) as [->|Hne].
    { rewrite (run_encrypt args inp') by exact Hpos. rewrite encryptFile_unfold.
      destruct (read_error w !! inp') as [code|] eqn:Hre; simpl.
      { eexists [_; _]. split; [by rewrite <- app_assoc|]. simpl.
        split; [|split]; [|intros [=]|intros Hc; by destruct (Hc inp')].
        intros [= <-]. split; [intros _|done].
        left. left. congruence. }
      destruct (files w !! inp') as [data|] eqn:Hf; simpl.
      2:{ eexists [_; _]. split; [by rewrite <- app_assoc|]. simpl.
          split; [|split]; [|intros [=]|intros Hc; by destruct (Hc inp')].
          intros [= <-]. split; [intros _|done].
          left. by right. }
      destruct (Encrypt (entropy w) data (key_used args)) as [enc|e] eqn:He; simpl.
      2:{ eexists [_; _]. split; [by rewrite <- app_assoc|]. simpl.
          split; [|split]; [|intros [=]|intros Hc; by destruct (Hc inp')].
          intros [= <-]. split; [intros _|done].
          right. left. by exists data, e. }
      destruct (write_error w !! encrypt_output args inp') as [code|] eqn:Hwe; simpl.
      { eexists [_; _]. split; [by rewrite <- app_assoc|]. simpl.
        split; [|split]; [|intros [=]|intros Hc; by destruct (Hc inp')].
        intros [= <-]. split; [intros _|done].
        right. right. unfold write_throws. congruence. }
      eexists [_]. split; [reflexivity|]. simpl.
      split; [|split]; [|intros [=]|intros Hc; by destruct (Hc inp')].
      intros [= <-]. split; [done|].
      intros [[Hr|Hr]|[(d & e' & _ & Hd & Hr)|Hr]].
      + congruence.
      + congruence.
      + congruence.
      + unfold write_throws in Hr. congruence. }
    destruct (decide (action = "decrypt")) as [->|Hnd].
    { rewrite (run_decrypt args inp') by exact Hpos. rewrite decryptFile_unfold.
      destruct (read_error w !! inp') as [code|] eqn:Hre; simpl.
      { eexists [_; _]. split; [by rewrite <- app_assoc|]. simpl.
        split; [|split]; [intros [=]| |intros _ Hc; by destruct (Hc inp')].
        intros [= <-]. split; [intros _|done].
        left. left. congruence. }
      destruct (files w !! inp') as [data|] eqn:Hf; simpl.
      2:{ eexists [_; _]. split; [by rewrite <- app_assoc|]. simpl.
          split; [|split]; [intros [=]| |intros _ Hc; by destruct (Hc inp')].
          intros [= <-]. split; [intros _|done].
          left. by right. }
      destruct (Decrypt data (key_used args)) as [text|e] eqn:He; simpl.
      2:{ eexists [_; _]. split; [by rewrite <- app_assoc|]. simpl.
          split; [|split]; [intros [=]| |intros _ Hc; by destruct (Hc inp')].
          intros [= <-]. split; [intros _|done].
          right. left. by exists data, e. }
      destruct (write_error w !! decrypt_output args inp') as [code|] eqn:Hwe; simpl.
      { eexists [_; _]. split; [by rewrite <- app_assoc|]. simpl.
        split; [|split]; [intros [=]| |intros _ Hc; by destruct (Hc inp')].
        intros [= <-]. split; [intros _|done].
        right. right. unfold write_throws. congruence. }
      eexists [_]. split; [reflexivity|]. simpl.
      split; [|split]; [intros [=]| |intros _ Hc; by destruct (Hc inp')].
      intros [= <-]. split; [done|].
      intros [[Hr|Hr]|[(d & e' & _ & Hd & Hr)|Hr]].
      + congruence.
      + congruence.
      + congruence.
      + unfold write_throws in Hr. congruence. }
    rewrite (run_unknown args action inp') by assumption.
    eexists [_; _]. split; [simpl; by rewrite <- app_assoc|]. simpl.
    split; [|split]; [intros [= ? ?]; congruence..|done].
  - rewrite run_wrong_count by exact Hlen.
    eexists [_]. split; [reflexivity|]. simpl.
    split; [|split]; [| |done];
      intros Hpos; rewrite Hpos in Hlen; by destruct Hlen.
Qed.

End Reporting.

(** ** Paths, keys and the order of calls *)

Section Paths.
Context `{CryptoJS}.



(** X7: when [--output] names the input path itself, a successful
    encrypt replaces the content of the input file by the ciphertext and
    a successful decrypt replaces it by the decrypted text; the program
    does not refuse or warn, and no other path changes. *)
Theorem in_place_overwrites_input
    (args : parsed_args) (inp data : string) (w : world) :
  values_output args = Some inp →
  read_error w !! inp = None → files w !! inp = Some data →
  write_error w !! inp = None →
  (positionals args = ["encrypt"; inp] →
     ∀ enc, Encrypt (entropy w) data (key_used args) = Return enc →
       fst (run args w) = 0 ∧
       files (snd (run args w)) !! inp = Some enc ∧
       ∀ p, p ≠ inp → files (snd (run args w)) !! p = files w !! p) ∧
  (positionals args = ["decrypt"; inp] →
     ∀ text, Decrypt data (key_used args) = Return text →
       fst (run args w) = 0 ∧
       files (snd (run args w)) !! inp = Some text ∧
       ∀ p, p ≠ inp → files (snd (run args w)) !! p = files w !! p).
Proof.
  intros Hout Hre Hfile Hwe. split; intros Hpos res Hres.
  - rewrite (run_encrypt args inp) by exact Hpos.
    unfold encrypt_output. rewrite Hout. simpl.
    rewrite encryptFile_unfold, Hre, Hfile. simpl. rewrite Hres, Hwe. simpl.
    split; [reflexivity|]. split; [apply lookup_insert_eq|].
    intros p Hp. by apply lookup_insert_ne.
  - rewrite (run_decrypt args inp) by exact Hpos.
    unfold decrypt_output. rewrite Hout. simpl.
    rewrite decryptFile_unfold, Hre, Hfile. simpl. rewrite Hres, Hwe. simpl.
    split; [reflexivity|]. split; [apply lookup_insert_eq|].
    intros p Hp. by apply lookup_insert_ne.
Qed.

(** X8: the calls of an operation come in program order and each step
    runs only if the one before it succeeded: after a failed read
    nothing else is called; the cipher is called on exactly the content
    read; [writeFile] is called only when the transform returned, and
    then with exactly the text it returned. *)
Theorem calls_in_program_order (inp key out : string) (w : world) :
  (∃ tr, calls (snd (encryptFile inp key out w)) = (calls w ++ tr)%list ∧
     ((read_throws w inp ∧ tr = [EvInvoke OpEncryptFile; EvReadFile inp]) ∨
      ∃ data, read_error w !! inp = None ∧ files w !! inp = Some data ∧
        ((∃ e, Encrypt (entropy w) data key = Raise e ∧
               tr = [EvInvoke OpEncryptFile; EvReadFile inp;
                     EvAESEncrypt data key]) ∨
         (∃ enc, Encrypt (entropy w) data key = Return enc ∧
                 tr = [EvInvoke OpEncryptFile; EvReadFile inp;
                       EvAESEncrypt data key; EvWriteFile out enc])))) ∧
  (∃ tr, calls (snd (decryptFile inp key out w)) = (calls w ++ tr)%list ∧
     ((read_throws w inp ∧ tr = [EvInvoke OpDecryptFile; EvReadFile inp]) ∨
      ∃ data, read_error w !! inp = None ∧ files w !! inp = Some data ∧
        ((∃ e, Decrypt data key = Raise e ∧
               tr = [EvInvoke OpDecryptFile; EvReadFile inp;
                     EvAESDecrypt data key]) ∨
         (∃ text, Decrypt data key = Return text ∧
                  tr = [EvInvoke OpDecryptFile; EvReadFile inp;
                        EvAESDecrypt data key; EvWriteFile out text])))).
Proof.
  split.
  - rewrite encryptFile_unfold.
    destruct (read_error w !! inp) as [code|] eqn:Hre; simpl.
    { exists [EvInvoke OpEncryptFile; EvReadFile inp].
      split; [by rewrite <- app_assoc|]. left.
      split; [|reflexivity]. left. congruence. }
    destruct (files w !! inp) as [data|] eqn:Hf; simpl.
    2:{ exists [EvInvoke OpEncryptFile; EvReadFile inp].
        split; [by rewrite <- app_assoc|]. left.
        split; [|reflexivity]. by right. }
    destruct (Encrypt (entropy w) data key) as [enc|e] eqn:He; simpl.
    2:{ exists [EvInvoke OpEncryptFile; EvReadFile inp; EvAESEncrypt data key].
        split; [by rewrite <- !app_assoc|]. right.
        exists data. repeat split. left. by exists e. }
    exists [EvInvoke OpEncryptFile; EvReadFile inp; EvAESEncrypt data key;
            EvWriteFile out enc].
    split; [destruct (write_error w !! out); simpl; by rewrite <- !app_assoc|].
    right. exists data. repeat split. right. by exists enc.
  - rewrite decryptFile_unfold.
    destruct (read_error w !! inp) as [code|] eqn:Hre; simpl.
    { exists [EvInvoke OpDecryptFile; EvReadFile inp].
      split; [by rewrite <- app_assoc|]. left.
      split; [|reflexivity]. left. congruence. }
    destruct (files w !! inp) as [data|] eqn:Hf; simpl.
    2:{ exists [EvInvoke OpDecryptFile; EvReadFile inp].
        split; [by rewrite <- app_assoc|]. left.
        split; [|reflexivity]. by right. }
    destruct (Decrypt data key) as [text|e] eqn:He; simpl.
    2:{ exists [EvInvoke OpDecryptFile; EvReadFile inp; EvAESDecrypt data key].
        split; [by rewrite <- !app_assoc|]. right.
        exists data. repeat split. left. by exists e. }
    exists [EvInvoke OpDecryptFile; EvReadFile inp; EvAESDecrypt data key;
            EvWriteFile out text].
    split; [destruct (write_error w !! out); simpl; by rewrite <- !app_assoc|].
    right. exists data. repeat split. right. by exists text.
Qed.


(** X10: a given [--key] is used as it is, the empty string included
    (only an absent key falls back to the default): the operation gets
    it, and every cipher call of the invocation is made with it. *)
Theorem explicit_key_used (args : parsed_args) (inp k : string) (w : world) :
  values_key args = Some k →
  (positionals args = ["encrypt"; inp] →
     run args w =
       report_encrypt inp (encrypt_output args inp)
         (encryptFile inp k (encrypt_output args inp) w) ∧
     ∀ tr, calls (snd (run args w)) = (calls w ++ tr)%list →
           ∀ k', k' ∈ cipher_keys tr → k' = k) ∧
  (positionals args = ["decrypt"; inp] →
     run args w =
       report_decrypt inp (decrypt_output args inp)
         (decryptFile inp k (decrypt_output args inp) w) ∧
     ∀ tr, calls (snd (run args w)) = (calls w ++ tr)%list →
           ∀ k', k' ∈ cipher_keys tr → k' = k).
Proof.
  intros Hkey. split; intros Hpos.
  - rewrite (run_encrypt args inp) by exact Hpos.
    unfold key_used. rewrite Hkey. simpl. split; [reflexivity|].
    intros tr Htr.
    rewrite (proj2 (report_encrypt_frame _ _ _)) in Htr.
    destruct (encryptFile_calls inp k (encrypt_output args inp) w)
      as (tr0 & Hcalls & _ & _ & _ & _ & Hk & _).
    rewrite Hcalls in Htr. apply app_inv_head in Htr as <-. exact Hk.
  - rewrite (run_decrypt args inp) by exact Hpos.
    unfold key_used. rewrite Hkey. simpl. split; [reflexivity|].
    intros tr Htr.
    rewrite (proj2 (report_decrypt_frame _ _ _)) in Htr.
    destruct (decryptFile_calls inp k (decrypt_output args inp) w)
      as (tr0 & Hcalls & _ & _ & _ & _ & Hk & _).
    rewrite Hcalls in Htr. apply app_inv_head in Htr as <-. exact Hk.
Qed.

(** X11: what [encryptFile] writes is the text of the cipher and nothing
    else, and [decryptFile] hands the content of its input file to the
    cipher untouched: after a successful [encryptFile], a [decryptFile]
    on its output, under any key, calls [AES.decrypt] once, on exactly
    the text [AES.encrypt(...).toString()] produced. *)
Theorem decrypt_receives_what_encrypt_wrote (inp K mid : string) (w : world) :
  fst (encryptFile inp K mid w) = Ok tt →
  ∃ data c,
    files w !! inp = Some data ∧
    Encrypt (entropy w) data K = Return c ∧
    files (snd (encryptFile inp K mid w)) !! mid = Some c ∧
    ∀ K' out,
      read_error w !! mid = None →
      ∃ tr, calls (snd (decryptFile mid K' out (snd (encryptFile inp K mid w)))) =
              (calls (snd (encryptFile inp K mid w)) ++ tr)%list ∧
            cipher_calls tr = [EvAESDecrypt c K'].
Proof.
  rewrite encryptFile_unfold.
  destruct (read_error w !! inp) as [code|] eqn:Hre; simpl; [discriminate|].
  destruct (files w !! inp) as [data|] eqn:Hf; simpl; [|discriminate].
  destruct (Encrypt (entropy w) data K) as [c|e] eqn:He; simpl; [|discriminate].
  destruct (write_error w !! mid) as [code|] eqn:Hwe; simpl; [discriminate|].
  intros _. exists data, c. split; [reflexivity|]. split; [exact He|].
  split; [apply lookup_insert_eq|].
  intros K' out Hre2. rewrite decryptFile_unfold. simpl.
  rewrite Hre2, lookup_insert_eq. simpl.
  destruct (Decrypt c K') as [text|e]; simpl.
  - exists [EvInvoke OpDecryptFile; EvReadFile mid; EvAESDecrypt c K';
            EvWriteFile out text].
    split; [|reflexivity].
    destruct (write_error w !! out); simpl; by rewrite <- !app_assoc.
  - exists [EvInvoke OpDecryptFile; EvReadFile mid; EvAESDecrypt c K'].
    split; [|reflexivity]. by rewrite <- !app_assoc.
Qed.

(** X12: an exception of the cipher reaches the console as it was
    thrown: the invocation traces that very exception, prints the
    failure line, and stops after the cipher call, so nothing is written
    and [writeFile] is not even attempted, whatever the state of the
    output path. *)
Theorem cipher_exception_reported_unchanged
    (args : parsed_args) (inp data : string) (e : exception) (w : world) :
  read_error w !! inp = None → files w !! inp = Some data →
  (positionals args = ["encrypt"; inp] →
     Encrypt (entropy w) data (key_used args) = Raise e →
     run args w =
       (0, World (files w) (read_error w) (write_error w) (entropy w)
                 (console w ++
                    [Trace e; Error ("Failed to encrypt " +:+ inp +:+ ".")])%list
                 (calls w ++
                    [EvInvoke OpEncryptFile; EvReadFile inp;
                     EvAESEncrypt data (key_used args)])%list)) ∧
  (positionals args = ["decrypt"; inp] →
     Decrypt data (key_used args) = Raise e →
     run args w =
       (0, World (files w) (read_error w) (write_error w) (entropy w)
                 (console w ++
                    [Trace e; Error ("Failed to decrypt " +:+ inp +:+ ".")])%list
                 (calls w ++
                    [EvInvoke OpDecryptFile; EvReadFile inp;
                     EvAESDecrypt data (key_used args)])%list)).
Proof.
  intros Hre Hfile. split; intros Hpos Hraise.
  - rewrite (run_encrypt args inp) by exact Hpos.
    rewrite encryptFile_unfold, Hre, Hfile. simpl. rewrite Hraise. simpl.
    unfold add_console, add_call, after_read. simpl.
    rewrite <- !app_assoc. reflexivity.
  - rewrite (run_decrypt args inp) by exact Hpos.
    rewrite decryptFile_unfold, Hre, Hfile. simpl. rewrite Hraise. simpl.
    unfold add_console, add_call, after_read. simpl.
    rewrite <- !app_assoc. reflexivity.
Qed.

End Paths.

(** ** The stand-in binding meets the contract *)




(** ** The theorems at concrete inputs *)

Section Witnesses.
#[local] Existing Instance toy_cipher.


Lemma transform_or_io_failure_exits_0_witness :
  (read_throws plain_world "zz" ∧
   ∃ e, fst (run (ParsedArgs ["encrypt"; "zz"] None None) plain_world) = 0 ∧
        console (snd (run (ParsedArgs ["encrypt"; "zz"] None None) plain_world)) =
          [Trace e; Error "Failed to encrypt zz."]) ∧
  (write_throws read_only_world "a.txt.enc" ∧
   ∃ e, fst (run (ParsedArgs ["encrypt"; "a.txt"] None None) read_only_world) = 0 ∧
        console (snd (run (ParsedArgs ["encrypt"; "a.txt"] None None) read_only_world)) =
          [Trace e; Error "Failed to encrypt a.txt."]) ∧
  (decrypt_throws empty_file_world "a.enc" "mySecretKey" ∧
   ∃ e, fst (run (ParsedArgs ["decrypt"; "a.enc"] None None) empty_file_world) = 0 ∧
        console (snd (run (ParsedArgs ["decrypt"; "a.enc"] None None) empty_file_world)) =
          [Trace e; Error "Failed to decrypt a.enc."]).
Proof.
  assert (read_throws plain_world "zz") as Hr by (right; reflexivity).
  assert (write_throws read_only_world "a.txt.enc") as Hw by (vm_compute; discriminate).
  assert (decrypt_throws empty_file_world "a.enc" "mySecretKey") as Hd
    by (eexists EmptyString, _; repeat split; reflexivity).
  split; [|split]; (split; [assumption|]).
  - apply (proj1 (transform_or_io_failure_exits_0
                    (ParsedArgs ["encrypt"; "zz"] None None) "zz" plain_world));
      [reflexivity | left; exact Hr].
  - apply (proj1 (transform_or_io_failure_exits_0
                    (ParsedArgs ["encrypt"; "a.txt"] None None) "a.txt" read_only_world));
      [reflexivity | right; right; exact Hw].
  - apply (proj2 (transform_or_io_failure_exits_0
                    (ParsedArgs ["decrypt"; "a.enc"] None None) "a.enc" empty_file_world));
      [reflexivity | right; left; exact Hd].
Defined.


Lemma wrong_positional_count_usage_exit_1_witness :
  (fst (run (ParsedArgs [] None None) plain_world) = 1 ∧
   console (snd (run (ParsedArgs [] None None) plain_world)) = [Log usage_text] ∧
   calls (snd (run (ParsedArgs [] None None) plain_world)) = [] ∧
   files (snd (run (ParsedArgs [] None None) plain_world)) = files plain_world) ∧
  (fst (run (ParsedArgs ["encrypt"] None None) plain_world) = 1 ∧
   console (snd (run (ParsedArgs ["encrypt"] None None) plain_world)) = [Log usage_text] ∧
   calls (snd (run (ParsedArgs ["encrypt"] None None) plain_world)) = [] ∧
   files (snd (run (ParsedArgs ["encrypt"] None None) plain_world)) = files plain_world) ∧
  (fst (run (ParsedArgs ["encrypt"; "a.txt"; "b.txt"] None None) plain_world) = 1 ∧
   console (snd (run (ParsedArgs ["encrypt"; "a.txt"; "b.txt"] None None) plain_world)) =
     [Log usage_text] ∧
   calls (snd (run (ParsedArgs ["encrypt"; "a.txt"; "b.txt"] None None) plain_world)) = [] ∧
   files (snd (run (ParsedArgs ["encrypt"; "a.txt"; "b.txt"] None None) plain_world)) =
     files plain_world).
Proof.
  split; [|split].
  - apply (wrong_positional_count_usage_exit_1 (ParsedArgs [] None None) plain_world).
    simpl. lia.
  - apply (wrong_positional_count_usage_exit_1
             (ParsedArgs ["encrypt"] None None) plain_world).
    simpl. lia.
  - apply (wrong_positional_count_usage_exit_1
             (ParsedArgs ["encrypt"; "a.txt"; "b.txt"] None None) plain_world).
    simpl. lia.
Defined.

Lemma unknown_action_message_usage_exit_0_witness :
  fst (run (ParsedArgs ["foo"; "a.txt"] None None) plain_world) = 0 ∧
  console (snd (run (ParsedArgs ["foo"; "a.txt"] None None) plain_world)) =
    [Log "Unknown action: foo."; Log usage_text] ∧
  calls (snd (run (ParsedArgs ["foo"; "a.txt"] None None) plain_world)) = [] ∧
  files (snd (run (ParsedArgs ["foo"; "a.txt"] None None) plain_world)) =
    files plain_world.
Proof.
  apply (unknown_action_message_usage_exit_0
           (ParsedArgs ["foo"; "a.txt"] None None) "foo" "a.txt" plain_world).
  - reflexivity.
  - discriminate.
  - discriminate.
Defined.

Lemma default_output_path_witness :
  (run (ParsedArgs ["encrypt"; "a.txt"] None None) plain_world =
     report_encrypt "a.txt" "a.txt.enc"
       (encryptFile "a.txt" "mySecretKey" "a.txt.enc" plain_world) ∧
   ∀ tr, calls (snd (run (ParsedArgs ["encrypt"; "a.txt"] None None) plain_world)) =
           (calls plain_world ++ tr)%list →
         ∀ p, p ∈ written tr → p = "a.txt.enc") ∧
  (run (ParsedArgs ["decrypt"; "a.enc"] None None) cipher_world =
     report_decrypt "a.enc" "a.enc.txt"
       (decryptFile "a.enc" "mySecretKey" "a.enc.txt" cipher_world) ∧
   ∀ tr, calls (snd (run (ParsedArgs ["decrypt"; "a.enc"] None None) cipher_world)) =
           (calls cipher_world ++ tr)%list →
         ∀ p, p ∈ written tr → p = "a.enc.txt").
Proof.
  split.
  - apply (proj1 (default_output_path
                    (ParsedArgs ["encrypt"; "a.txt"] None None) "a.txt" plain_world
                    eq_refl)).
    reflexivity.
  - apply (proj2 (default_output_path
                    (ParsedArgs ["decrypt"; "a.enc"] None None) "a.enc" cipher_world
                    eq_refl)).
    reflexivity.
Defined.

Lemma default_key_shared_witness :
  (run (ParsedArgs ["encrypt"; "a.txt"] (Some "b") None) plain_world =
     report_encrypt "a.txt" "b" (encryptFile "a.txt" "mySecretKey" "b" plain_world) ∧
   ∀ tr, calls (snd (run (ParsedArgs ["encrypt"; "a.txt"] (Some "b") None) plain_world)) =
           (calls plain_world ++ tr)%list →
         ∀ k, k ∈ cipher_keys tr → k = "mySecretKey") ∧
  (run (ParsedArgs ["decrypt"; "a.enc"] (Some "b") None) cipher_world =
     report_decrypt "a.enc" "b" (decryptFile "a.enc" "mySecretKey" "b" cipher_world) ∧
   ∀ tr, calls (snd (run (ParsedArgs ["decrypt"; "a.enc"] (Some "b") None) cipher_world)) =
           (calls cipher_world ++ tr)%list →
         ∀ k, k ∈ cipher_keys tr → k = "mySecretKey").
Proof.
  split.
  - apply (proj1 (default_key_shared
                    (ParsedArgs ["encrypt"; "a.txt"] (Some "b") None) "a.txt" plain_world
                    eq_refl)).
    reflexivity.
  - apply (proj2 (default_key_shared
                    (ParsedArgs ["decrypt"; "a.enc"] (Some "b") None) "a.enc" cipher_world
                    eq_refl)).
    reflexivity.
Defined.

Lemma failed_read_or_transform_never_writes_witness :
  (read_throws plain_world "zz" ∧
   ∃ e w' tr, encryptFile "zz" "k1" "zz.enc" plain_world = (Throw e, w') ∧
              calls w' = (calls plain_world ++ tr)%list ∧ written tr = [] ∧
              files w' = files plain_world) ∧
  (decrypt_throws empty_file_world "a.enc" "k1" ∧
   ∃ e w' tr, decryptFile "a.enc" "k1" "a.enc.txt" empty_file_world = (Throw e, w') ∧
              calls w' = (calls empty_file_world ++ tr)%list ∧ written tr = [] ∧
              files w' = files empty_file_world).
Proof.
  assert (read_throws plain_world "zz") as Hr by (right; reflexivity).
  assert (decrypt_throws empty_file_world "a.enc" "k1") as Hd
    by (eexists EmptyString, _; repeat split; reflexivity).
  split; (split; [assumption|]).
  - apply (proj1 (failed_read_or_transform_never_writes "zz" "k1" "zz.enc" plain_world)).
    left. exact Hr.
  - apply (proj2 (failed_read_or_transform_never_writes
                    "a.enc" "k1" "a.enc.txt" empty_file_world)).
    right. exact Hd.
Defined.


Lemma one_operation_per_invocation_witness :
  ∃ tr, calls (snd (run (ParsedArgs ["encrypt"; "a.txt"] None (Some "k1")) plain_world)) = tr ∧
        invoked tr = [OpEncryptFile] ∧ read tr = ["a.txt"] ∧
        (∀ p, p ∈ written tr → p = "a.txt.enc").
Proof.
  destruct (one_operation_per_invocation
              (ParsedArgs ["encrypt"; "a.txt"] None (Some "k1")) plain_world)
    as (tr & Hcalls & _ & _ & Henc & _).
  destruct (Henc "a.txt" eq_refl) as (Hinv & _ & Hread & Hwr & _).
  exists tr. split; [exact Hcalls|]. split; [exact Hinv|]. split; [exact Hread|].
  exact Hwr.
Defined.

Lemma encrypt_success_witness :
  run (ParsedArgs ["encrypt"; "a.txt"] None (Some "k1")) stale_output_world =
    (0, World {[ "a.txt" := "hello"; "a.txt.enc" := "Saleef" ]} ∅ ∅ "S"%char
              [Log "Successfully encrypted a.txt, and saved to a.txt.enc."]
              [EvInvoke OpEncryptFile; EvReadFile "a.txt";
               EvAESEncrypt "hello" "k1"; EvWriteFile "a.txt.enc" "Saleef"]).
Proof.
  rewrite (encrypt_success (ParsedArgs ["encrypt"; "a.txt"] None (Some "k1"))
             "a.txt" "hello" "Saleef" stale_output_world);
    [|reflexivity..].
  vm_compute. reflexivity.
Defined.

Lemma decrypt_success_witness :
  run (ParsedArgs ["decrypt"; "a.enc"] None (Some "k1")) cipher_world =
    (0, World {[ "a.enc" := "Saleef"; "a.enc.txt" := "hello" ]} ∅ ∅ "S"%char
              [Log "Successfully decrypted a.enc, and saved to a.enc.txt."]
              [EvInvoke OpDecryptFile; EvReadFile "a.enc";
               EvAESDecrypt "Saleef" "k1"; EvWriteFile "a.enc.txt" "hello"]).
Proof.
  rewrite (decrypt_success (ParsedArgs ["decrypt"; "a.enc"] None (Some "k1"))
             "a.enc" "Saleef" "hello" cipher_world);
    [|reflexivity..].
  vm_compute. reflexivity.
Defined.

Lemma stderr_iff_operation_throws_witness :
  write_throws read_only_world "a.txt.enc" ∧
  ∃ out, console (snd (run (ParsedArgs ["encrypt"; "a.txt"] None None)
                           read_only_world)) = out ∧
         stderr out ≠ [].
Proof.
  assert (write_throws read_only_world "a.txt.enc") as Hw
    by (vm_compute; discriminate).
  split; [exact Hw|].
  destruct (stderr_iff_operation_throws
              (ParsedArgs ["encrypt"; "a.txt"] None None) "a.txt" read_only_world)
    as (out & Hcons & Henc & _).
  exists out. split; [exact Hcons|].
  apply (Henc eq_refl). right. right. exact Hw.
Defined.


Lemma in_place_overwrites_input_witness :
  fst (run (ParsedArgs ["encrypt"; "a.txt"] (Some "a.txt") (Some "k1")) plain_world) = 0 ∧
  files (snd (run (ParsedArgs ["encrypt"; "a.txt"] (Some "a.txt") (Some "k1"))
                  plain_world)) !! "a.txt" = Some "Saleef" ∧
  ∀ p, p ≠ "a.txt" →
       files (snd (run (ParsedArgs ["encrypt"; "a.txt"] (Some "a.txt") (Some "k1"))
                       plain_world)) !! p = files plain_world !! p.
Proof.
  apply (proj1 (in_place_overwrites_input
                  (ParsedArgs ["encrypt"; "a.txt"] (Some "a.txt") (Some "k1"))
                  "a.txt" "hello" plain_world eq_refl eq_refl eq_refl eq_refl)).
  - reflexivity.
  - reflexivity.
Defined.


Lemma explicit_key_used_witness :
  run (ParsedArgs ["decrypt"; "a.enc"] None (Some EmptyString)) cipher_world =
    report_decrypt "a.enc" "a.enc.txt"
      (decryptFile "a.enc" EmptyString "a.enc.txt" cipher_world) ∧
  ∀ tr, calls (snd (run (ParsedArgs ["decrypt"; "a.enc"] None (Some EmptyString))
                        cipher_world)) = (calls cipher_world ++ tr)%list →
        ∀ k', k' ∈ cipher_keys tr → k' = EmptyString.
Proof.
  apply (proj2 (explicit_key_used
                  (ParsedArgs ["decrypt"; "a.enc"] None (Some EmptyString))
                  "a.enc" EmptyString cipher_world eq_refl)).
  reflexivity.
Defined.

Lemma decrypt_receives_what_encrypt_wrote_witness :
  ∃ data c,
    files plain_world !! "a.txt" = Some data ∧
    Encrypt (entropy plain_world) data "k1" = Return c ∧
    files (snd (encryptFile "a.txt" "k1" "a.txt.enc" plain_world)) !! "a.txt.enc" =
      Some c ∧
    ∀ K' out,
      read_error plain_world !! "a.txt.enc" = None →
      ∃ tr, calls (snd (decryptFile "a.txt.enc" K' out
                          (snd (encryptFile "a.txt" "k1" "a.txt.enc" plain_world)))) =
              (calls (snd (encryptFile "a.txt" "k1" "a.txt.enc" plain_world)) ++ tr)%list ∧
            cipher_calls tr = [EvAESDecrypt c K'].
Proof.
  apply (decrypt_receives_what_encrypt_wrote "a.txt" "k1" "a.txt.enc" plain_world).
  reflexivity.
Defined.

Lemma cipher_exception_reported_unchanged_witness :
  run (ParsedArgs ["decrypt"; "a.enc"] None None) empty_file_world =
    (0, World {[ "a.enc" := EmptyString ]} ∅ ∅ "S"%char
              [Trace (LibraryError "Malformed ciphertext");
               Error "Failed to decrypt a.enc."]
              [EvInvoke OpDecryptFile; EvReadFile "a.enc";
               EvAESDecrypt EmptyString "mySecretKey"]).
Proof.
  apply (proj2 (cipher_exception_reported_unchanged
                  (ParsedArgs ["decrypt"; "a.enc"] None None) "a.enc" EmptyString
                  (LibraryError "Malformed ciphertext") empty_file_world
                  eq_refl eq_refl)).
  - reflexivity.
  - reflexivity.
Defined.

End Witnesses.
